(** * canalyzer: a CAN-bus sniffer sketch (src/canalyzer.ino)

    The sketch initialises an MCP2515 CAN controller, polls it, and prints
    every received frame on the serial port as
    [ID: <hex id> Data: <hex bytes>].  This development embeds [setup] and
    [loop] as computations over an explicit world (the controller's state
    and the trace of every call that is observable from outside), and
    proves the properties of the ingestion loop and of the text it
    writes. *)

From Stdlib Require Import ZArith String Ascii Bool List Lia.
Import ListNotations.

Open Scope string_scope.
Open Scope Z_scope.

(** ** Characters and text written by the platform *)

Definition CR : ascii := "013"%char.
Definition LF : ascii := "010"%char.

(** [Print::println()] of the Arduino core writes a carriage return and a
    line feed: that pair is the line terminator of the serial stream. *)
Definition CRLF : string := String CR (String LF "").

(** [Print::printNumber(unsigned long n, uint8_t base)] of the Arduino core:
<<
  char buf[8 * sizeof(long) + 1];
  char *str = &buf[sizeof(buf) - 1];
  *str = '\0';
  if (base < 2) base = 10;
  do {
    char c = n % base;
    n /= base;
    *--str = c < 10 ? c + '0' : c + 'A' - 10;
  } while(n);
  return write(str);
>>
    The conversion of one digit: *)
Definition digit_char (c : Z) : ascii :=
  if c <? 10 then ascii_of_nat (Z.to_nat (c + 48))
  else ascii_of_nat (Z.to_nat (c + 65 - 10)).

(** The do-while loop; [str] is the text already stored behind the
    cursor.  The buffer has room for [8 * sizeof(long)] digits, which is
    the fuel [printNumber] gives the loop. *)
Fixpoint printNumber_loop (fuel : nat) (n base : Z) (str : string) : string :=
  match fuel with
  | O => str
  | S fuel' =>
      let c := n mod base in
      let n' := n / base in
      let str' := String (digit_char c) str in
      if n' =? 0 then str' else printNumber_loop fuel' n' base str'
  end.

Definition printNumber (n base : Z) : string :=
  let base := if base <? 2 then 10 else base in
  printNumber_loop 32 n base "".

Definition HEX : Z := 16.

(** [Serial.print(n, HEX)]: the argument is converted to [unsigned long]
    (32 bits) and printed by [printNumber]. *)
Definition print_unsigned (n base : Z) : string :=
  printNumber (n mod 2 ^ 32) base.

(** The conversion [%02X] of the C library's [sprintf]: the argument, taken
    as an [unsigned int] (16 bits on the AVR), in hexadecimal with the
    letters [ABCDEF], at least one digit, padded on the left with zeros to
    a width of two.  The digits are produced as in [printNumber_loop], least
    significant first; four of them are enough for 16 bits. *)
Fixpoint pad_zeros (k : nat) (s : string) : string :=
  match k with
  | O => s
  | S k' => String "0"%char (pad_zeros k' s)
  end.

Definition fmt_02X (v : Z) : string :=
  let digits := printNumber_loop 16 (v mod 2 ^ 16) 16 "" in
  pad_zeros (2 - String.length digits) digits.

(** [sprintf(buf, "%02X", v)] with [buf] of [bufsize] characters: the text
    and its terminating NUL must fit, writing past the buffer is undefined
    behaviour ([None]). *)
Definition sprintf_02X (bufsize : nat) (v : Z) : option string :=
  let s := fmt_02X v in
  if (String.length s + 1 <=? bufsize)%nat then Some s else None.

(** ** Reading hexadecimal text back (the grammar of the output line) *)

Definition hex_digit_value (c : ascii) : option Z :=
  let n := Z.of_nat (nat_of_ascii c) in
  if (48 <=? n) && (n <=? 57) then Some (n - 48)
  else if (65 <=? n) && (n <=? 70) then Some (n - 55)
  else None.

Definition is_upper_hex_digit (c : ascii) : bool :=
  match hex_digit_value c with Some _ => true | None => false end.

Fixpoint all_chars (p : ascii -> bool) (s : string) : bool :=
  match s with
  | "" => true
  | String c s' => p c && all_chars p s'
  end.

Fixpoint parse_hex_from (acc : Z) (s : string) : option Z :=
  match s with
  | "" => Some acc
  | String c s' =>
      match hex_digit_value c with
      | Some d => parse_hex_from (acc * 16 + d) s'
      | None => None
      end
  end.

(** The value of a non-empty string of uppercase hexadecimal digits. *)
Definition parse_hex (s : string) : option Z :=
  match s with
  | "" => None
  | _ => parse_hex_from 0 s
  end.

(** [s] is the uppercase hexadecimal rendering of [n] with no prefix and no
    zero-padding: it reads back as [n] and starts with a zero only when it
    is the single digit [0]. *)
Definition upper_hex_of (n : Z) (s : string) : Prop :=
  parse_hex s = Some n /\
  (s = "0" \/ exists c s', s = String c s' /\ c <> "0"%char).


(** Consecutive pairs of hexadecimal digits, each pair one byte. *)
Fixpoint parse_hex_bytes (s : string) : option (list Z) :=
  match s with
  | "" => Some []
  | String c1 (String c2 s') =>
      match hex_digit_value c1, hex_digit_value c2, parse_hex_bytes s' with
      | Some h, Some l, Some bs => Some (h * 16 + l :: bs)
      | _, _, _ => None
      end
  | String _ "" => None
  end.

Fixpoint strip_prefix (p s : string) : option string :=
  match p with
  | "" => Some s
  | String a p' =>
      match s with
      | String b s' => if Ascii.eqb a b then strip_prefix p' s' else None
      | "" => None
      end
  end.

(** The text before and after the first occurrence of [c]. *)
Fixpoint split_at_char (c : ascii) (s : string) : option (string * string) :=
  match s with
  | "" => None
  | String a s' =>
      if Ascii.eqb a c then Some ("", s')
      else match split_at_char c s' with
           | Some (l, r) => Some (String a l, r)
           | None => None
           end
  end.

(** The data segment of a line [ID: <id> Data: <bytes>] with its
    terminator: what stands between [Data: ] and the end of the line. *)
Definition data_segment (line : string) : option string :=
  match strip_prefix "ID: " line with
  | Some r1 =>
      match split_at_char " "%char r1 with
      | Some (_, r2) =>
          match strip_prefix "Data: " r2 with
          | Some r3 =>
              match split_at_char CR r3 with
              | Some (seg, rest) =>
                  if String.eqb rest (String LF "") then Some seg else None
              | None => None
              end
          | None => None
          end
      | None => None
      end
  | None => None
  end.

Definition parse_line_payload (line : string) : option (list Z) :=
  match data_segment line with
  | Some seg => parse_hex_bytes seg
  | None => None
  end.

Fixpoint cat_all (l : list string) : string :=
  match l with
  | [] => ""
  | s :: l' => s ++ cat_all l'
  end.

(** ** The data model *)

(** Modelled from the spec: the declaration of the message structure
    [tCAN] is in the driver's header, which is not part of the sources; the
    identifier is an unsigned integer, the length a small unsigned field
    and the payload a buffer of eight bytes.  The sketch reads
    [message.id], [message.header.length] and [message.data[i]]. *)
Record tCAN : Type := mk_tCAN {
  id : Z;
  header_length : Z;
  data : list Z
}.

(** The bytes that belong to the frame: the first [header_length] bytes of
    the buffer, in wire order. *)
Definition payload (m : tCAN) : list Z :=
  firstn (Z.to_nat (header_length m)) (data m).

Definition is_byte (b : Z) : Prop := 0 <= b <= 255.

(** A valid frame: identifier in the 11-bit (standard) or 29-bit (extended)
    range, between zero and eight payload bytes, held in the eight-byte
    buffer of the structure. *)
Definition valid_frame (m : tCAN) : Prop :=
  (0 <= id m < 2 ^ 11 \/ 0 <= id m < 2 ^ 29) /\
  0 <= header_length m <= 8 /\
  List.length (data m) = 8%nat /\
  Forall is_byte (data m).

(** Modelled from the spec: the bitrates the controller supports (the
    constants are defined in the driver's header, which is not part of the
    sources); the sketch uses the 500 kbit/s one. *)
Inductive bitrate : Type := CANSPEED_125 | CANSPEED_250 | CANSPEED_500.

(** ** The controller driver, an external collaborator

    [Canbus.init], [mcp2515_check_message] and [mcp2515_get_message] belong
    to the driver library.  The sketch only depends on their interface:
    each call may change the controller's state and returns its answer. *)
Class ControllerAdapter (A : Type) : Type := {
  adapter_init : bitrate -> A -> bool * A;
  adapter_check_message : A -> bool * A;
  adapter_get_message : A -> option tCAN * A
}.

(** ** Observable events and the world *)

Inductive event : Type :=
| EvSerialBegin (baud : Z)
| EvWrite (text : string)
| EvDelay (ms : Z)
| EvInit (speed : bitrate) (ok : bool)
| EvCheck (pending : bool)
| EvGet (received : option tCAN).

Record World (A : Type) : Type := mk_World {
  can : A;
  trace : list event
}.
Arguments mk_World {A} _ _.
Arguments can {A} _.
Arguments trace {A} _.

(** Everything written to the serial port, in order. *)
Fixpoint serial_output (t : list event) : string :=
  match t with
  | [] => ""
  | EvWrite s :: t' => s ++ serial_output t'
  | _ :: t' => serial_output t'
  end.

Fixpoint count_check (t : list event) : nat :=
  match t with
  | [] => O
  | EvCheck _ :: t' => S (count_check t')
  | _ :: t' => count_check t'
  end.

Fixpoint count_get (t : list event) : nat :=
  match t with
  | [] => O
  | EvGet _ :: t' => S (count_get t')
  | _ :: t' => count_get t'
  end.

Definition is_write (e : event) : bool :=
  match e with EvWrite _ => true | _ => false end.

(** ** A state monad with undefined behaviour

    A computation changes the world and either returns a value or runs
    into undefined behaviour (an access outside an array); the world keeps
    what was observable up to that point. *)
Inductive result (X : Type) : Type :=
| Ok (x : X)
| Undefined.
Arguments Ok {X} _.
Arguments Undefined {X}.

Definition M (A X : Type) : Type := World A -> result X * World A.

Definition ret {A X} (x : X) : M A X := fun w => (Ok x, w).

Definition bind {A X Y} (c : M A X) (k : X -> M A Y) : M A Y :=
  fun w =>
    match c w with
    | (Ok x, w') => k x w'
    | (Undefined, w') => (Undefined, w')
    end.

Definition undefined {A X} : M A X := fun w => (Undefined, w).

Declare Scope sketch_scope.
Delimit Scope sketch_scope with sketch.
Notation "x <- c ;; k" := (bind c (fun x => k))
  (at level 61, c at next level, right associativity) : sketch_scope.
Notation "c ;; k" := (bind c (fun _ => k))
  (at level 61, right associativity) : sketch_scope.
Open Scope sketch_scope.

Definition emit {A} (e : event) : M A unit :=
  fun w => (Ok tt, mk_World (can w) (trace w ++ [e])%list).

(** *** The serial port *)

Definition Serial_begin {A} (baud : Z) : M A unit := emit (EvSerialBegin baud).

Definition Serial_print {A} (s : string) : M A unit := emit (EvWrite s).

(** [println(s)] is [print(s)] followed by [println()]. *)
Definition Serial_println {A} (s : string) : M A unit :=
  Serial_print s ;; Serial_print CRLF.

Definition Serial_print_base {A} (n base : Z) : M A unit :=
  Serial_print (print_unsigned n base).

Definition delay {A} (ms : Z) : M A unit := emit (EvDelay ms).

(** *** The driver calls *)

Definition Canbus_init {A} `{ControllerAdapter A} (speed : bitrate) : M A bool :=
  fun w =>
    let (ok, a) := adapter_init speed (can w) in
    (Ok ok, mk_World a (trace w ++ [EvInit speed ok])%list).

Definition mcp2515_check_message {A} `{ControllerAdapter A} : M A bool :=
  fun w =>
    let (pending, a) := adapter_check_message (can w) in
    (Ok pending, mk_World a (trace w ++ [EvCheck pending])%list).

Definition mcp2515_get_message {A} `{ControllerAdapter A} : M A (option tCAN) :=
  fun w =>
    let (r, a) := adapter_get_message (can w) in
    (Ok r, mk_World a (trace w ++ [EvGet r])%list).

(** *** C constructs *)

(** [arr[i]]: reading outside the array is undefined behaviour. *)
Definition array_read {A} (arr : list Z) (i : Z) : M A Z :=
  if i <? 0 then undefined
  else match nth_error arr (Z.to_nat i) with
       | Some v => ret v
       | None => undefined
       end.

(** [sprintf(buf, "%02X", v)] into a local buffer of [bufsize] characters. *)
Definition sprintf {A} (bufsize : nat) (v : Z) : M A string :=
  match sprintf_02X bufsize v with
  | Some s => ret s
  | None => undefined
  end.

(** [for (int i = start; i < start + n; i++) body]: the bound is not
    changed by the body, so the body runs at [start], ..., [start + n - 1]. *)
Fixpoint for_range {A} (n : nat) (i : Z) (body : Z -> M A unit) : M A unit :=
  match n with
  | O => ret tt
  | S n' => body i ;; for_range n' (i + 1) body
  end.

(** ** The sketch *)

Definition setup {A} `{ControllerAdapter A} : M A unit :=
  Serial_begin 9600 ;;
  ok <- Canbus_init CANSPEED_500 ;;
  (if ok : bool
   then Serial_println "CAN Init ok"
   else Serial_println "Can't init CAN") ;;
  Serial_println "CAN Read - Test receiving of CAN Bus message" ;;
  delay 1000.

(** The body of the inner [if] of [loop]: the formatting step. *)
Definition print_message {A} (message : tCAN) : M A unit :=
  Serial_print "ID: " ;;
  Serial_print_base (id message) HEX ;;
  Serial_print " " ;;
  Serial_print "Data: " ;;
  for_range (Z.to_nat (header_length message)) 0
    (fun i =>
       v <- array_read (data message) i ;;
       s <- sprintf 3 v ;;
       Serial_print s) ;;
  Serial_println "".

Definition loop {A} `{ControllerAdapter A} : M A unit :=
  pending <- mcp2515_check_message ;;
  if pending : bool then
    r <- mcp2515_get_message ;;
    match r with
    | Some message => print_message message
    | None => ret tt
    end
  else ret tt.

(** The Arduino core calls [setup()] once and then [loop()] forever;
    [sketch n] is the execution up to the end of the [n]-th iteration. *)
Fixpoint iterate {A} (n : nat) (body : M A unit) : M A unit :=
  match n with
  | O => ret tt
  | S n' => body ;; iterate n' body
  end.

Definition sketch {A} `{ControllerAdapter A} (n : nat) : M A unit :=
  setup ;; iterate n loop.

(** The line the formatting step writes for a frame, as one text. *)
Definition format (m : tCAN) : string :=
  "ID: " ++ print_unsigned (id m) HEX ++ " Data: "
  ++ cat_all (map fmt_02X (payload m)) ++ CRLF.

(** The calls of the formatting step for a frame whose payload lies within
    its buffer: one write per [print]. *)
Definition message_writes (m : tCAN) : list event :=
  map EvWrite
    (["ID: "; print_unsigned (id m) HEX; " "; "Data: "]
     ++ map fmt_02X (payload m) ++ [""; CRLF])%list.

(** ** Concrete controllers *)

(** A controller with a first-in first-out buffer of received frames. *)
#[export] Instance fifo_adapter : ControllerAdapter (list tCAN) := {
  adapter_init := fun _ q => (true, q);
  adapter_check_message := fun q =>
    (match q with [] => false | _ :: _ => true end, q);
  adapter_get_message := fun q =>
    match q with
    | [] => (None, [])
    | m :: q' => (Some m, q')
    end
}.

Definition frame_7DF : tCAN :=
  mk_tCAN 0x7DF 3 [0x02; 0x01; 0x0C; 0; 0; 0; 0; 0].

(** The same frame in a buffer whose bytes past the payload are left over
    from an earlier, longer frame. *)
Definition frame_7DF_stale : tCAN :=
  mk_tCAN 0x7DF 3 [0x02; 0x01; 0x0C; 0xFF; 0xAA; 0x55; 0x10; 0x99].

(** A frame without payload. *)
Definition frame_empty : tCAN := mk_tCAN 0x123 0 [0; 0; 0; 0; 0; 0; 0; 0].

(** A controller that does not acknowledge its configuration and whose
    status nevertheless reports a frame at every query. *)
Inductive unconfigured : Type := Unconfigured.

#[export] Instance unconfigured_adapter : ControllerAdapter unconfigured := {
  adapter_init := fun _ a => (false, a);
  adapter_check_message := fun a => (true, a);
  adapter_get_message := fun a => (Some frame_7DF, a)
}.

(** A controller whose status reports a frame that the read then does not
    deliver (the race between the two calls). *)
Inductive racing : Type := Racing.

#[export] Instance racing_adapter : ControllerAdapter racing := {
  adapter_init := fun _ a => (true, a);
  adapter_check_message := fun a => (true, a);
  adapter_get_message := fun a => (None, a)
}.

(** The computation [c], started in [w], returns normally, leaves the
    controller alone and writes exactly the text [s] to the serial port. *)
Definition writes {A} (c : M A unit) (w : World A) (s : string) : Prop :=
  exists ws,
    c w = (Ok tt, mk_World (can w) (trace w ++ ws)%list) /\
    forallb is_write ws = true /\
    serial_output ws = s.

(** The computation [c] only writes to the serial port, whether it returns
    or not: it makes no driver call and leaves the controller alone. *)
Definition write_only {A X} (c : M A X) : Prop :=
  forall w, exists ws,
    snd (c w) = mk_World (can w) (trace w ++ ws)%list /\
    forallb is_write ws = true.

(** The events the computation [c] adds to the trace when started in
    [w]. *)
Definition new_events {A X} (c : M A X) (w : World A) : list event :=
  skipn (List.length (trace w)) (trace (snd (c w))).

(** The events of one iteration of [loop]: the query alone, the query and
    a read that delivers nothing, or the query, a read that delivers a
    frame and then only writes to the serial port. *)
Inductive iteration_events : list event -> Prop :=
| iteration_idle : iteration_events [EvCheck false]
| iteration_race : iteration_events [EvCheck true; EvGet None]
| iteration_frame (m : tCAN) (ws : list event) :
    forallb is_write ws = true ->
    iteration_events (EvCheck true :: EvGet (Some m) :: ws).

(** The number of line feeds in a text, that is, of lines it completes. *)
Fixpoint count_lines (s : string) : nat :=
  match s with
  | "" => O
  | String c s' => (if Ascii.eqb c LF then 1 else 0) + count_lines s'
  end.



(** The two lines [setup] writes. *)
Definition startup_lines (ok : bool) : string :=
  (if ok then "CAN Init ok" else "Can't init CAN") ++ CRLF
  ++ "CAN Read - Test receiving of CAN Bus message" ++ CRLF.

Ltac solve_valid_frame :=
  unfold valid_frame, is_byte; simpl;
  repeat split; try lia; try (left; lia);
  repeat constructor; lia.

(** The frames the driver delivered, in the order of the reads. *)
Fixpoint delivered (t : list event) : list tCAN :=
  match t with
  | [] => []
  | EvGet (Some m) :: t' => m :: delivered t'
  | _ :: t' => delivered t'
  end.

Fixpoint count_init (t : list event) : nat :=
  match t with
  | [] => O
  | EvInit _ _ :: t' => S (count_init t')
  | _ :: t' => count_init t'
  end.

(** The identifier segment of a line [ID: <id> Data: <bytes>]: what stands
    between [ID: ] and the next space. *)
Definition id_segment (line : string) : option string :=
  match strip_prefix "ID: " line with
  | Some r1 =>
      match split_at_char " "%char r1 with
      | Some (seg, _) => Some seg
      | None => None
      end
  | None => None
  end.

Definition parse_line_id (line : string) : option Z :=
  match id_segment line with
  | Some seg => parse_hex seg
  | None => None
  end.

(** A message whose length field (four bits wide in the driver's
    structure) says nine, more than the buffer holds. *)
Definition frame_overlong : tCAN :=
  mk_tCAN 0x7DF 9 [0x02; 0x01; 0x0C; 0; 0; 0; 0; 0].

(** * Text *)

Lemma append_assoc (s1 s2 s3 : string) : (s1 ++ s2) ++ s3 = s1 ++ s2 ++ s3.
Proof.
  induction s1 as [| c s1 IH]; simpl; [reflexivity | now rewrite IH].
Qed.

Lemma append_empty_r (s : string) : s ++ "" = s.
Proof.
  induction s as [| c s IH]; simpl; [reflexivity | now rewrite IH].
Qed.

Lemma all_chars_app (p : ascii -> bool) (s1 s2 : string) :
  all_chars p (s1 ++ s2) = all_chars p s1 && all_chars p s2.
Proof.
  induction s1 as [| c s1 IH]; simpl; [reflexivity |].
  rewrite IH. apply andb_assoc.
Qed.

Lemma all_chars_impl (p q : ascii -> bool) (s : string) :
  (forall c, p c = true -> q c = true) ->
  all_chars p s = true -> all_chars q s = true.
Proof.
  intros Hpq. induction s as [| c s IH]; simpl; [reflexivity |].
  intros H. apply andb_true_iff in H as [Hc Hs].
  rewrite (Hpq c Hc), (IH Hs). reflexivity.
Qed.

Lemma cat_all_app (l1 l2 : list string) :
  cat_all (l1 ++ l2)%list = cat_all l1 ++ cat_all l2.
Proof.
  induction l1 as [| s l1 IH]; simpl; [reflexivity |].
  rewrite IH, append_assoc. reflexivity.
Qed.

Lemma strip_prefix_app (p s : string) : strip_prefix p (p ++ s) = Some s.
Proof.
  induction p as [| a p IH]; simpl; [reflexivity |].
  rewrite Ascii.eqb_refl. exact IH.
Qed.

Lemma split_at_char_app (c : ascii) (s1 s2 : string) :
  all_chars (fun a => negb (Ascii.eqb a c)) s1 = true ->
  split_at_char c (s1 ++ String c s2) = Some (s1, s2).
Proof.
  induction s1 as [| a s1 IH]; simpl.
  - intros _. rewrite Ascii.eqb_refl. reflexivity.
  - intros H. apply andb_true_iff in H as [Ha Hs].
    apply negb_true_iff in Ha. rewrite Ha, (IH Hs). reflexivity.
Qed.

(** * Properties of the rendering functions *)

Section Rendering.

Lemma digit_char_cases (c : Z) :
  0 <= c < 16 ->
  c = 0 \/ c = 1 \/ c = 2 \/ c = 3 \/ c = 4 \/ c = 5 \/ c = 6 \/ c = 7 \/
  c = 8 \/ c = 9 \/ c = 10 \/ c = 11 \/ c = 12 \/ c = 13 \/ c = 14 \/ c = 15.
Proof. lia. Qed.

Lemma hex_digit_value_digit_char (c : Z) :
  0 <= c < 16 -> hex_digit_value (digit_char c) = Some c.
Proof.
  intros Hc. apply digit_char_cases in Hc.
  repeat (destruct Hc as [-> | Hc]; [reflexivity |]).
  subst c. reflexivity.
Qed.

Lemma digit_char_nonzero (c : Z) :
  0 < c < 16 -> digit_char c <> "0"%char.
Proof.
  intros Hc E.
  assert (Hv : hex_digit_value (digit_char c) = Some c)
    by (apply hex_digit_value_digit_char; lia).
  rewrite E in Hv. cbv in Hv. inversion Hv. lia.
Qed.

Lemma printNumber_loop_S (fuel : nat) (n base : Z) (str : string) :
  printNumber_loop (S fuel) n base str =
  if n / base =? 0 then String (digit_char (n mod base)) str
  else printNumber_loop fuel (n / base) base
         (String (digit_char (n mod base)) str).
Proof. reflexivity. Qed.

Lemma printNumber_loop_app (fuel : nat) : forall n base str,
  printNumber_loop fuel n base str = printNumber_loop fuel n base "" ++ str.
Proof.
  induction fuel as [| fuel IH]; intros n base str.
  - reflexivity.
  - rewrite !printNumber_loop_S.
    destruct (n / base =? 0).
    + reflexivity.
    + rewrite (IH _ _ (String _ str)), (IH _ _ (String _ "")).
      rewrite append_assoc. reflexivity.
Qed.

Lemma parse_hex_from_app (s1 : string) : forall acc s2,
  parse_hex_from acc (s1 ++ s2) =
  match parse_hex_from acc s1 with
  | Some v => parse_hex_from v s2
  | None => None
  end.
Proof.
  induction s1 as [| c s1 IH]; intros acc s2; simpl.
  - reflexivity.
  - destruct (hex_digit_value c); [apply IH | reflexivity].
Qed.

Lemma parse_hex_from_all_hex (s : string) : forall acc v,
  parse_hex_from acc s = Some v -> all_chars is_upper_hex_digit s = true.
Proof.
  induction s as [| c s IH]; intros acc v H; simpl in *.
  - reflexivity.
  - unfold is_upper_hex_digit.
    destruct (hex_digit_value c); [| discriminate].
    simpl. eapply IH; eassumption.
Qed.

(** With enough room for the digits of [n], the loop of [printNumber] in
    base 16 stores a non-empty text that reads back as [n] and does not
    start with a zero unless [n] is zero. *)
Lemma printNumber_loop_hex (fuel : nat) : forall n,
  0 <= n < 16 ^ Z.of_nat (S fuel) ->
  let s := printNumber_loop (S fuel) n 16 "" in
  parse_hex_from 0 s = Some n /\
  (exists c s', s = String c s' /\ (0 < n -> c <> "0"%char)) /\
  (n = 0 -> s = "0").
Proof.
  induction fuel as [| fuel IH]; intros n Hn s; subst s.
  - change (16 ^ Z.of_nat 1) with 16 in Hn.
    rewrite printNumber_loop_S.
    rewrite Z.div_small, Z.mod_small by lia. simpl (0 =? 0).
    cbv iota. simpl parse_hex_from.
    rewrite hex_digit_value_digit_char by lia.
    split; [reflexivity |]. split.
    + eexists _, _. split; [reflexivity |].
      intros Hpos. apply digit_char_nonzero. lia.
    + intros ->. reflexivity.
  - rewrite printNumber_loop_S.
    assert (Hpow : 16 ^ Z.of_nat (S (S fuel)) = 16 * 16 ^ Z.of_nat (S fuel)).
    { rewrite (Nat2Z.inj_succ (S fuel)), Z.pow_succ_r by lia. reflexivity. }
    assert (Hmod : 0 <= n mod 16 < 16) by (apply Z.mod_pos_bound; lia).
    assert (Hdiv : 0 <= n / 16 < 16 ^ Z.of_nat (S fuel)).
    { split; [apply Z.div_pos; lia |].
      apply Z.div_lt_upper_bound; lia. }
    assert (Hsplit : n = 16 * (n / 16) + n mod 16)
      by (apply Z.div_mod; lia).
    destruct (Z.eqb_spec (n / 16) 0) as [Hz | Hnz].
    + simpl parse_hex_from.
      rewrite hex_digit_value_digit_char by lia.
      split; [f_equal; lia |]. split.
      * eexists _, _. split; [reflexivity |].
        intros Hpos. apply digit_char_nonzero. lia.
      * intros ->. reflexivity.
    + rewrite printNumber_loop_app.
      destruct (IH (n / 16) Hdiv) as (Hval & (c & s' & Hs & Hc) & _).
      split; [| split].
      * rewrite parse_hex_from_app, Hval. simpl.
        rewrite hex_digit_value_digit_char by lia. f_equal. lia.
      * rewrite Hs. simpl. eexists _, _. split; [reflexivity |].
        intros _. apply Hc. lia.
      * intros ->. rewrite Z.div_0_l in Hnz by lia. congruence.
Qed.

(** [Serial.print(n, HEX)] for an identifier of at most 32 bits. *)
Lemma print_unsigned_hex (n : Z) :
  0 <= n < 2 ^ 32 -> upper_hex_of n (print_unsigned n HEX).
Proof.
  intros Hn. unfold print_unsigned, printNumber, HEX.
  rewrite Z.mod_small by exact Hn.
  change (if 16 <? 2 then 10 else 16) with 16.
  assert (Hr : 0 <= n < 16 ^ Z.of_nat 32).
  { change (16 ^ Z.of_nat 32) with (2 ^ 128). 
    assert (2 ^ 32 < 2 ^ 128) by (apply Z.pow_lt_mono_r; lia). lia. }
  destruct (printNumber_loop_hex 31 n Hr) as (Hval & (c & s' & Hs & Hc) & Hz).
  unfold upper_hex_of. split.
  - unfold parse_hex. rewrite Hs in *. exact Hval.
  - destruct (Z.eq_dec n 0) as [-> | Hne].
    + left. apply Hz. reflexivity.
    + right. exists c, s'. split; [exact Hs | apply Hc; lia].
Qed.

(** The two characters [%02X] writes for a byte. *)
Lemma fmt_02X_byte (b : Z) :
  is_byte b ->
  fmt_02X b = String (digit_char (b / 16)) (String (digit_char (b mod 16)) "").
Proof.
  unfold is_byte. intros Hb. unfold fmt_02X.
  rewrite (Z.mod_small b (2 ^ 16)) by lia.
  rewrite printNumber_loop_S.
  destruct (Z.eqb_spec (b / 16) 0) as [Hz | Hnz].
  - rewrite Hz. reflexivity.
  - rewrite printNumber_loop_S.
    assert (Hq : 0 <= b / 16 < 16).
    { split; [apply Z.div_pos; lia | apply Z.div_lt_upper_bound; lia]. }
    rewrite (Z.div_small (b / 16) 16), (Z.mod_small (b / 16) 16) by lia.
    reflexivity.
Qed.


End Rendering.

(** * Traces *)

Lemma serial_output_app (t1 t2 : list event) :
  serial_output (t1 ++ t2)%list = serial_output t1 ++ serial_output t2.
Proof.
  induction t1 as [| e t1 IH]; simpl; [reflexivity |].
  destruct e; simpl; rewrite IH; try reflexivity.
  rewrite append_assoc. reflexivity.
Qed.

Lemma count_check_app (t1 t2 : list event) :
  count_check (t1 ++ t2)%list = (count_check t1 + count_check t2)%nat.
Proof.
  induction t1 as [| e t1 IH]; simpl; [reflexivity |].
  destruct e; simpl; rewrite IH; reflexivity.
Qed.

Lemma count_get_app (t1 t2 : list event) :
  count_get (t1 ++ t2)%list = (count_get t1 + count_get t2)%nat.
Proof.
  induction t1 as [| e t1 IH]; simpl; [reflexivity |].
  destruct e; simpl; rewrite IH; reflexivity.
Qed.

Lemma serial_output_writes (l : list string) :
  serial_output (map EvWrite l) = cat_all l.
Proof.
  induction l as [| s l IH]; simpl; [reflexivity | now rewrite IH].
Qed.

Lemma is_write_map (l : list string) : forallb is_write (map EvWrite l) = true.
Proof.
  induction l as [| s l IH]; simpl; [reflexivity | exact IH].
Qed.

Lemma writes_no_calls (ws : list event) :
  forallb is_write ws = true -> count_check ws = O /\ count_get ws = O.
Proof.
  induction ws as [| e ws IH]; simpl; [intros _; split; reflexivity |].
  destruct e; simpl; try discriminate. exact IH.
Qed.

Lemma writes_not_get (ws : list event) (r : option tCAN) :
  forallb is_write ws = true -> ~ In (EvGet r) ws.
Proof.
  intros H Hin. rewrite forallb_forall in H.
  specialize (H _ Hin). discriminate.
Qed.

Lemma new_events_eq {A X} (c : M A X) (w : World A) (evs : list event) :
  trace (snd (c w)) = (trace w ++ evs)%list -> new_events c w = evs.
Proof.
  unfold new_events. intros ->.
  induction (trace w) as [| e t IH]; simpl; [reflexivity | exact IH].
Qed.

(** * The monad *)

Section Monad.
Context {A : Type}.

Lemma bind_Ok {X Y} (c : M A X) (k : X -> M A Y) w x w' :
  c w = (Ok x, w') -> bind c k w = k x w'.
Proof. unfold bind. intros ->. reflexivity. Qed.

Lemma bind_Undefined {X Y} (c : M A X) (k : X -> M A Y) w w' :
  c w = (Undefined, w') -> bind c k w = (Undefined, w').
Proof. unfold bind. intros ->. reflexivity. Qed.

Lemma Serial_print_run (s : string) (w : World A) :
  Serial_print s w = (Ok tt, mk_World (can w) (trace w ++ [EvWrite s])%list).
Proof. reflexivity. Qed.

Lemma Serial_println_run (s : string) (w : World A) :
  Serial_println s w =
  (Ok tt, mk_World (can w) (trace w ++ [EvWrite s; EvWrite CRLF])%list).
Proof.
  unfold Serial_println, bind. rewrite Serial_print_run.
  rewrite Serial_print_run. simpl. rewrite <- app_assoc. reflexivity.
Qed.

Lemma write_only_ret {X} (x : X) : write_only (@ret A X x).
Proof.
  intros w. exists []. simpl. rewrite app_nil_r. destruct w; auto.
Qed.

Lemma write_only_undefined {X} : write_only (@undefined A X).
Proof.
  intros w. exists []. simpl. rewrite app_nil_r. destruct w; auto.
Qed.

Lemma write_only_print (s : string) : write_only (@Serial_print A s).
Proof. intros w. exists [EvWrite s]. auto. Qed.

Lemma write_only_bind {X Y} (c : M A X) (k : X -> M A Y) :
  write_only c -> (forall x, write_only (k x)) -> write_only (bind c k).
Proof.
  intros Hc Hk w. destruct (Hc w) as (ws1 & E1 & W1).
  unfold bind. destruct (c w) as [[x |] w1]; simpl in E1; subst w1.
  - destruct (Hk x (mk_World (can w) (trace w ++ ws1)%list))
      as (ws2 & E2 & W2).
    exists (ws1 ++ ws2)%list. rewrite E2. simpl.
    rewrite app_assoc, forallb_app, W1, W2. auto.
  - exists ws1. auto.
Qed.

Lemma write_only_array_read (arr : list Z) (i : Z) :
  write_only (@array_read A arr i).
Proof.
  unfold array_read. destruct (i <? 0).
  - apply write_only_undefined.
  - destruct (nth_error arr (Z.to_nat i)).
    + apply write_only_ret.
    + apply write_only_undefined.
Qed.

Lemma write_only_sprintf (n : nat) (v : Z) : write_only (@sprintf A n v).
Proof.
  unfold sprintf. destruct (sprintf_02X n v).
  - apply write_only_ret.
  - apply write_only_undefined.
Qed.

Lemma write_only_for_range (n : nat) : forall i (body : Z -> M A unit),
  (forall j, write_only (body j)) -> write_only (for_range n i body).
Proof.
  induction n as [| n IH]; intros i body Hb; simpl.
  - apply write_only_ret.
  - apply write_only_bind; [apply Hb | intros _; apply IH, Hb].
Qed.

Lemma write_only_print_message (m : tCAN) : write_only (@print_message A m).
Proof.
  unfold print_message, Serial_print_base, Serial_println.
  repeat (apply write_only_bind; [| intros _]);
    try apply write_only_print.
  apply write_only_for_range. intros j.
  apply write_only_bind; [apply write_only_array_read | intros v].
  apply write_only_bind; [apply write_only_sprintf | intros s].
  apply write_only_print.
Qed.

End Monad.

(** * The formatting step *)

Section Formatting.
Context {A : Type}.

Lemma sprintf_byte (b : Z) (w : World A) :
  is_byte b -> sprintf 3 b w = (Ok (fmt_02X b), w).
Proof.
  intros Hb. unfold sprintf, sprintf_02X.
  rewrite (fmt_02X_byte b Hb). reflexivity.
Qed.

Lemma array_read_in (pre suf : list Z) (v : Z) (w : World A) :
  array_read (pre ++ v :: suf)%list (Z.of_nat (List.length pre)) w = (Ok v, w).
Proof.
  unfold array_read.
  destruct (Z.ltb_spec (Z.of_nat (List.length pre)) 0) as [Hneg | _]; [lia |].
  rewrite Nat2Z.id, nth_error_app2, Nat.sub_diag by lia.
  reflexivity.
Qed.

(** The [for] loop over the first bytes of a buffer of bytes writes the
    two digits of each, in order, and nothing else. *)
Lemma for_range_bytes (n : nat) : forall (pre suf : list Z) (w : World A),
  (n <= List.length suf)%nat ->
  Forall is_byte suf ->
  for_range n (Z.of_nat (List.length pre))
    (fun i =>
       v <- array_read (pre ++ suf)%list i ;;
       s <- sprintf 3 v ;;
       Serial_print s) w =
  (Ok tt,
   mk_World (can w)
     (trace w ++ map EvWrite (map fmt_02X (firstn n suf)))%list).
Proof.
  induction n as [| n IH]; intros pre suf w Hlen Hbytes.
  - simpl. rewrite app_nil_r. destruct w; reflexivity.
  - destruct suf as [| v suf]; [simpl in Hlen; lia |].
    inversion Hbytes as [| ? ? Hv Hsuf]; subst.
    cbn [for_range].
    erewrite bind_Ok; cycle 1.
    { erewrite bind_Ok by apply array_read_in.
      erewrite bind_Ok by (apply sprintf_byte; exact Hv).
      apply Serial_print_run. }
    replace (pre ++ v :: suf)%list with ((pre ++ [v]) ++ suf)%list
      by (rewrite <- app_assoc; reflexivity).
    replace (Z.of_nat (List.length pre) + 1)
      with (Z.of_nat (List.length (pre ++ [v])%list))
      by (rewrite length_app; simpl; lia).
    rewrite IH by (simpl in Hlen; try exact Hsuf; lia).
    cbn [can trace firstn map]. rewrite <- app_assoc. reflexivity.
Qed.

(** What the formatting step does for a valid frame, call by call. *)
Lemma print_message_valid (m : tCAN) (w : World A) :
  valid_frame m ->
  print_message m w =
  (Ok tt, mk_World (can w) (trace w ++ message_writes m)%list).
Proof.
  intros (_ & Hlen & Hbuf & Hbytes).
  unfold print_message, Serial_print_base, message_writes.
  do 4 (erewrite bind_Ok by apply Serial_print_run).
  erewrite bind_Ok; cycle 1.
  { apply (for_range_bytes _ [] (data m)); [| exact Hbytes].
    rewrite Hbuf. lia. }
  rewrite Serial_println_run. cbn [can trace].
  unfold payload. rewrite !map_app.
  repeat rewrite <- app_assoc. reflexivity.
Qed.

Lemma message_writes_only (m : tCAN) :
  forallb is_write (message_writes m) = true.
Proof. apply is_write_map. Qed.

Lemma message_writes_output (m : tCAN) :
  serial_output (message_writes m) = format m.
Proof.
  unfold message_writes. rewrite serial_output_writes. unfold format.
  cbn [cat_all app]. rewrite cat_all_app. cbn [cat_all].
  rewrite (append_empty_r CRLF). reflexivity.
Qed.

Lemma print_message_writes (m : tCAN) (w : World A) :
  valid_frame m -> writes (print_message m) w (format m).
Proof.
  intros Hv. exists (message_writes m).
  split; [apply print_message_valid, Hv |].
  split; [apply message_writes_only | apply message_writes_output].
Qed.

End Formatting.

(** * Frames and their text *)

Section Frames.

Lemma Forall_firstn_bytes (n : nat) : forall l,
  Forall is_byte l -> Forall is_byte (firstn n l).
Proof.
  induction n as [| n IH]; intros l Hl; simpl; [constructor |].
  destruct Hl; constructor; auto.
Qed.

Lemma valid_payload_bytes (m : tCAN) :
  valid_frame m -> Forall is_byte (payload m).
Proof.
  intros (_ & _ & _ & Hb). apply Forall_firstn_bytes, Hb.
Qed.

Lemma valid_payload_length (m : tCAN) :
  valid_frame m -> Z.of_nat (List.length (payload m)) = header_length m.
Proof.
  intros (_ & Hlen & Hbuf & _). unfold payload.
  rewrite length_firstn, Hbuf. lia.
Qed.

Lemma valid_id_range (m : tCAN) : valid_frame m -> 0 <= id m < 2 ^ 32.
Proof.
  intros (Hid & _).
  assert (2 ^ 11 < 2 ^ 32) by (apply Z.pow_lt_mono_r; lia).
  assert (2 ^ 29 < 2 ^ 32) by (apply Z.pow_lt_mono_r; lia).
  lia.
Qed.


Lemma parse_hex_bytes_fmt (bs : list Z) :
  Forall is_byte bs -> parse_hex_bytes (cat_all (map fmt_02X bs)) = Some bs.
Proof.
  induction 1 as [| b bs Hb _ IH]; [reflexivity |].
  cbn [map cat_all]. rewrite (fmt_02X_byte b Hb).
  cbn [append parse_hex_bytes].
  unfold is_byte in Hb.
  assert (Hq : 0 <= b / 16 < 16).
  { split; [apply Z.div_pos; lia | apply Z.div_lt_upper_bound; lia]. }
  assert (Hm : 0 <= b mod 16 < 16) by (apply Z.mod_pos_bound; lia).
  rewrite !hex_digit_value_digit_char, IH by lia.
  do 2 f_equal. pose proof (Z.div_mod b 16). lia.
Qed.

Lemma hex_digit_not (c : ascii) :
  is_upper_hex_digit c = false ->
  forall a, is_upper_hex_digit a = true -> negb (Ascii.eqb a c) = true.
Proof.
  intros Hc a Ha. apply negb_true_iff.
  destruct (Ascii.eqb_spec a c) as [-> | _]; [congruence | reflexivity].
Qed.

Lemma bytes_all_hex (bs : list Z) :
  Forall is_byte bs ->
  all_chars is_upper_hex_digit (cat_all (map fmt_02X bs)) = true.
Proof.
  intros Hb. pose proof (parse_hex_bytes_fmt bs Hb) as Hp.
  revert Hp. generalize (cat_all (map fmt_02X bs)). clear Hb.
  induction bs as [| b bs IH]; intros s Hp.
  - destruct s as [| c1 [| c2 s]]; simpl in Hp; try discriminate;
      [reflexivity |].
    destruct (hex_digit_value c1), (hex_digit_value c2),
      (parse_hex_bytes s); discriminate.
  - destruct s as [| c1 [| c2 s]]; simpl in Hp; try discriminate.
    simpl. unfold is_upper_hex_digit at 1 2.
    destruct (hex_digit_value c1); [| discriminate].
    destruct (hex_digit_value c2); [| discriminate].
    destruct (parse_hex_bytes s) as [bs' |] eqn:E; [| discriminate].
    inversion Hp; subst. simpl. apply IH. exact E.
Qed.

Lemma upper_hex_all_hex (n : Z) (s : string) :
  upper_hex_of n s -> all_chars is_upper_hex_digit s = true.
Proof.
  intros [Hp _]. unfold parse_hex in Hp.
  destruct s; [discriminate |].
  eapply parse_hex_from_all_hex. exact Hp.
Qed.

(** The reader of the line finds the digits of the payload between
    [Data: ] and the terminator. *)
Lemma data_segment_format (m : tCAN) :
  valid_frame m ->
  data_segment (format m) = Some (cat_all (map fmt_02X (payload m))).
Proof.
  intros Hv. unfold format, data_segment.
  rewrite strip_prefix_app.
  change (" Data: " ++ cat_all (map fmt_02X (payload m)) ++ CRLF)
    with (String " "%char
            ("Data: " ++ cat_all (map fmt_02X (payload m)) ++ CRLF)).
  rewrite split_at_char_app.
  2:{ eapply all_chars_impl;
        [apply (hex_digit_not " "%char); reflexivity |].
      eapply upper_hex_all_hex, print_unsigned_hex, valid_id_range, Hv. }
  rewrite strip_prefix_app.
  unfold CRLF at 1.
  rewrite split_at_char_app.
  2:{ eapply all_chars_impl; [apply (hex_digit_not CR); reflexivity |].
      apply bytes_all_hex, valid_payload_bytes, Hv. }
  reflexivity.
Qed.

Lemma count_lines_app (s1 s2 : string) :
  count_lines (s1 ++ s2) = (count_lines s1 + count_lines s2)%nat.
Proof.
  induction s1 as [| c s1 IH]; simpl; [reflexivity |].
  rewrite IH. lia.
Qed.

Lemma count_lines_hex (s : string) :
  all_chars is_upper_hex_digit s = true -> count_lines s = O.
Proof.
  induction s as [| c s IH]; simpl; [reflexivity |].
  intros H. apply andb_true_iff in H as [Hc Hs].
  pose proof (hex_digit_not LF eq_refl c Hc) as Hn.
  apply negb_true_iff in Hn. rewrite Hn, (IH Hs). reflexivity.
Qed.

(** The text of a valid frame is one line. *)
Lemma format_one_line (m : tCAN) :
  valid_frame m -> count_lines (format m) = 1%nat.
Proof.
  intros Hv. unfold format.
  rewrite !count_lines_app.
  rewrite (count_lines_hex (print_unsigned (id m) HEX)).
  2:{ eapply upper_hex_all_hex, print_unsigned_hex, valid_id_range, Hv. }
  rewrite (count_lines_hex (cat_all _)).
  2:{ apply bytes_all_hex, valid_payload_bytes, Hv. }
  reflexivity.
Qed.

End Frames.

(** * The formatter: what is written for a frame *)

Lemma valid_frame_7DF : valid_frame frame_7DF.
Proof. solve_valid_frame. Defined.

Lemma valid_frame_7DF_stale : valid_frame frame_7DF_stale.
Proof. solve_valid_frame. Defined.

Lemma valid_frame_empty : valid_frame frame_empty.
Proof. solve_valid_frame. Defined.



(** C4. For every valid frame, reading the data segment of the written
    line back, two hexadecimal digits for a byte, gives the original
    payload. *)
Theorem format_parse_roundtrip {A} (w : World A) (m : tCAN) :
  valid_frame m ->
  exists line,
    writes (print_message m) w line /\
    parse_line_payload line = Some (payload m).
Proof.
  intros Hv. exists (format m).
  split; [apply print_message_writes, Hv |].
  unfold parse_line_payload. rewrite (data_segment_format m Hv).
  apply parse_hex_bytes_fmt, valid_payload_bytes, Hv.
Qed.

Lemma format_parse_roundtrip_witness :
  valid_frame frame_7DF_stale /\
  exists line,
    writes (print_message frame_7DF_stale) (mk_World tt []) line /\
    parse_line_payload line = Some [0x02; 0x01; 0x0C].
Proof.
  split; [exact valid_frame_7DF_stale |].
  exact (format_parse_roundtrip (mk_World tt []) frame_7DF_stale
           valid_frame_7DF_stale).
Defined.



(** C6. The formatting step is deterministic, total on valid frames and
    free of side effects other than its output: started on equal frames in
    any two worlds it returns normally, leaves the controller alone, makes
    no driver call and writes the same text. *)
Theorem print_message_deterministic {A} (w1 w2 : World A) (m1 m2 : tCAN) :
  valid_frame m1 ->
  m1 = m2 ->
  exists line,
    writes (print_message m1) w1 line /\
    writes (print_message m2) w2 line.
Proof.
  intros Hv <-. exists (format m1).
  split; apply print_message_writes, Hv.
Qed.

Lemma print_message_deterministic_witness :
  valid_frame frame_7DF /\
  frame_7DF = frame_7DF /\
  exists line,
    writes (print_message frame_7DF) (mk_World tt []) line /\
    writes (print_message frame_7DF) (mk_World tt [EvDelay 1000]) line.
Proof.
  split; [exact valid_frame_7DF |]. split; [reflexivity |].
  exact (print_message_deterministic (mk_World tt []) (mk_World tt [EvDelay 1000])
           frame_7DF frame_7DF valid_frame_7DF eq_refl).
Defined.

Section Noninterference.
Context {A : Type}.

Lemma bind_agree {X Y} (c1 c2 : M A X) (k1 k2 : X -> M A Y) (w : World A) :
  c1 w = c2 w ->
  (forall x w', k1 x w' = k2 x w') ->
  bind c1 k1 w = bind c2 k2 w.
Proof.
  intros Hc Hk. unfold bind. rewrite Hc.
  destruct (c2 w) as [[x |] w']; [apply Hk | reflexivity].
Qed.

Lemma array_read_agree (d1 d2 : list Z) (j : nat) (w : World A) :
  nth_error d1 j = nth_error d2 j ->
  array_read d1 (Z.of_nat j) w = array_read d2 (Z.of_nat j) w.
Proof.
  intros H. unfold array_read. rewrite Nat2Z.id, H. reflexivity.
Qed.

(** The loop reads the buffer at the indices it runs over only. *)
Lemma for_range_agree (d1 d2 : list Z) (n : nat) :
  forall (k : nat) (w : World A),
  (forall j, (k <= j < k + n)%nat -> nth_error d1 j = nth_error d2 j) ->
  for_range n (Z.of_nat k)
    (fun i => v <- array_read d1 i ;; s <- sprintf 3 v ;; Serial_print s) w =
  for_range n (Z.of_nat k)
    (fun i => v <- array_read d2 i ;; s <- sprintf 3 v ;; Serial_print s) w.
Proof.
  induction n as [| n IH]; intros k w H; [reflexivity |].
  cbn [for_range]. apply bind_agree.
  - apply bind_agree; [| reflexivity].
    apply array_read_agree, H. lia.
  - intros _ w'.
    replace (Z.of_nat k + 1) with (Z.of_nat (S k)) by lia.
    apply IH. intros j Hj. apply H. lia.
Qed.

Lemma payload_nth_error (m1 m2 : tCAN) (j : nat) :
  header_length m1 = header_length m2 ->
  payload m1 = payload m2 ->
  (j < Z.to_nat (header_length m1))%nat ->
  nth_error (data m1) j = nth_error (data m2) j.
Proof.
  unfold payload. intros Hl Hp Hj.
  pose proof (nth_error_firstn (Z.to_nat (header_length m1)) (data m1) j)
    as H1.
  pose proof (nth_error_firstn (Z.to_nat (header_length m2)) (data m2) j)
    as H2.
  rewrite <- Hl in H2.
  apply Nat.ltb_lt in Hj. rewrite Hj in H1, H2.
  rewrite <- H1, <- H2, Hp, Hl. reflexivity.
Qed.

End Noninterference.

(** C9. The formatting step depends only on the identifier, the payload
    length and the first [header_length] bytes of the buffer: two frames
    that agree on these are printed by the very same calls, whatever the
    rest of their buffers holds. *)
Theorem print_message_payload_only {A} (w : World A) (m1 m2 : tCAN) :
  id m1 = id m2 ->
  header_length m1 = header_length m2 ->
  payload m1 = payload m2 ->
  print_message m1 w = print_message m2 w.
Proof.
  intros Hid Hlen Hp. unfold print_message.
  rewrite <- Hid, <- Hlen.
  do 4 (apply bind_agree; [reflexivity | intros _ ?w]).
  apply bind_agree; [| reflexivity].
  apply (for_range_agree (data m1) (data m2) _ 0%nat).
  intros j Hj. apply payload_nth_error; [exact Hlen | exact Hp | lia].
Qed.

Lemma print_message_payload_only_witness :
  id frame_7DF = id frame_7DF_stale /\
  header_length frame_7DF = header_length frame_7DF_stale /\
  payload frame_7DF = payload frame_7DF_stale /\
  data frame_7DF <> data frame_7DF_stale /\
  print_message frame_7DF (mk_World tt []) =
  print_message frame_7DF_stale (mk_World tt []).
Proof.
  split; [reflexivity |]. split; [reflexivity |]. split; [reflexivity |].
  split; [discriminate |].
  exact (print_message_payload_only (mk_World tt []) frame_7DF frame_7DF_stale
           eq_refl eq_refl eq_refl).
Defined.

(** C10. For every byte value from 0 to 255 the conversion [%02X] gives
    exactly two characters, so the two digits and the terminating NUL fit
    the local buffer of three characters: the [sprintf] of the formatting
    step returns normally with that text. *)
Theorem sprintf_fits_buffer {A} (w : World A) (b : Z) :
  0 <= b <= 255 ->
  String.length (fmt_02X b) = 2%nat /\
  (String.length (fmt_02X b) + 1 <= 3)%nat /\
  sprintf_02X 3 b = Some (fmt_02X b) /\
  sprintf 3 b w = (Ok (fmt_02X b), w).
Proof.
  intros Hb.
  assert (Hlen : String.length (fmt_02X b) = 2%nat)
    by (rewrite (fmt_02X_byte b Hb); reflexivity).
  split; [exact Hlen |]. split; [lia |].
  assert (Hs : sprintf_02X 3 b = Some (fmt_02X b))
    by (unfold sprintf_02X; rewrite Hlen; reflexivity).
  split; [exact Hs |]. unfold sprintf. rewrite Hs. reflexivity.
Qed.

Lemma sprintf_fits_buffer_witness :
  0 <= 255 <= 255 /\
  String.length (fmt_02X 255) = 2%nat /\
  (String.length (fmt_02X 255) + 1 <= 3)%nat /\
  sprintf_02X 3 255 = Some (fmt_02X 255) /\
  sprintf 3 255 (mk_World tt []) = (Ok (fmt_02X 255), mk_World tt []).
Proof.
  split; [lia |].
  apply (sprintf_fits_buffer (mk_World tt []) 255). lia.
Defined.

(** * The ingestion loop *)

Section Loop.
Context {A : Type} `{ControllerAdapter A}.

(** One iteration, spelled out along the answers of the driver. *)
Lemma loop_unfold (w : World A) :
  loop w =
  let (pending, a1) := adapter_check_message (can w) in
  if pending then
    let (r, a2) := adapter_get_message a1 in
    match r with
    | Some m =>
        print_message m
          (mk_World a2 (trace w ++ [EvCheck true; EvGet (Some m)])%list)
    | None =>
        (Ok tt, mk_World a2 (trace w ++ [EvCheck true; EvGet None])%list)
    end
  else (Ok tt, mk_World a1 (trace w ++ [EvCheck false])%list).
Proof.
  unfold loop, bind, mcp2515_check_message, mcp2515_get_message.
  destruct (adapter_check_message (can w)) as [[|] a1]; cbn [can trace].
  - destruct (adapter_get_message a1) as [[m |] a2]; cbn [can trace ret];
      rewrite <- app_assoc; reflexivity.
  - reflexivity.
Qed.

Lemma loop_events (w : World A) :
  exists evs,
    trace (snd (loop w)) = (trace w ++ evs)%list /\ iteration_events evs.
Proof.
  rewrite loop_unfold.
  destruct (adapter_check_message (can w)) as [[|] a1].
  - destruct (adapter_get_message a1) as [[m |] a2].
    + destruct (write_only_print_message m
                  (mk_World a2 (trace w ++ [EvCheck true; EvGet (Some m)])%list))
        as (ws & E & W).
      exists (EvCheck true :: EvGet (Some m) :: ws). rewrite E.
      cbn [can trace]. rewrite <- app_assoc.
      split; [reflexivity | constructor; exact W].
    + exists [EvCheck true; EvGet None]. split; [reflexivity | constructor].
  - exists [EvCheck false]. split; [reflexivity | constructor].
Qed.

Lemma iteration_events_calls (evs : list event) :
  iteration_events evs ->
  count_check evs = 1%nat /\
  (count_get evs <= 1)%nat /\
  forall r, In (EvGet r) evs ->
    exists ws, evs = EvCheck true :: EvGet r :: ws /\
               count_check ws = O /\ count_get ws = O.
Proof.
  intros [| | m ws W]; simpl.
  - split; [reflexivity |]. split; [lia |].
    intros r [E | []]. discriminate.
  - split; [reflexivity |]. split; [lia |].
    intros r [E | [E | []]]; [discriminate |].
    inversion E; subst. exists []. auto.
  - destruct (writes_no_calls ws W) as [Hc Hg]. rewrite Hc, Hg.
    split; [reflexivity |]. split; [lia |].
    intros r [E | [E | Hin]]; [discriminate | |].
    + inversion E; subst. exists ws. auto.
    + exfalso. exact (writes_not_get ws r W Hin).
Qed.

(** The trace of any number of iterations is a sequence of iteration
    chunks, one per iteration begun. *)
Lemma iterate_loop_events (n : nat) : forall (w : World A),
  exists chunks,
    trace (snd (iterate n loop w)) = (trace w ++ concat chunks)%list /\
    (List.length chunks <= n)%nat /\
    (fst (iterate n loop w) = Ok tt -> List.length chunks = n) /\
    Forall iteration_events chunks.
Proof.
  induction n as [| n IH]; intros w.
  - exists []. simpl. rewrite app_nil_r. auto.
  - cbn [iterate]. unfold bind.
    destruct (loop_events w) as (evs & E & S).
    destruct (loop w) as [[[] |] w1]; cbn [snd] in E.
    + destruct (IH w1) as (chunks & E' & L & L' & F).
      exists (evs :: chunks). rewrite E', E. cbn [concat List.length].
      rewrite <- app_assoc.
      split; [reflexivity |]. split; [lia |].
      split; [intros Hok; rewrite (L' Hok); reflexivity |].
      constructor; assumption.
    + exists [evs]. cbn [snd fst concat List.length]. rewrite app_nil_r.
      split; [exact E |]. split; [lia |].
      split; [discriminate |]. constructor; [exact S | constructor].
Qed.

(** What [setup] does, call by call. *)
Lemma setup_run (w : World A) :
  setup w =
  let (ok, a) := adapter_init CANSPEED_500 (can w) in
  (Ok tt,
   mk_World a
     (trace w ++
      [EvSerialBegin 9600; EvInit CANSPEED_500 ok;
       EvWrite (if ok then "CAN Init ok" else "Can't init CAN");
       EvWrite CRLF;
       EvWrite "CAN Read - Test receiving of CAN Bus message";
       EvWrite CRLF; EvDelay 1000])%list).
Proof.
  unfold setup, bind, Serial_begin, Canbus_init, delay, emit.
  cbn [can trace].
  destruct (adapter_init CANSPEED_500 (can w)) as [[|] a];
    rewrite !Serial_println_run; cbn [can trace];
    repeat rewrite <- app_assoc; reflexivity.
Qed.


End Loop.


(** With the first-in first-out controller and valid frames waiting, [n]
    iterations read and print the first [n] frames, one per iteration, and
    leave the others in the controller. *)
Lemma fifo_iterate (n : nat) : forall (q : list tCAN) (t : list event),
  Forall valid_frame q ->
  exists evs,
    iterate n loop (mk_World q t) =
      (Ok tt, mk_World (skipn n q) (t ++ evs)%list) /\
    serial_output evs = cat_all (map format (firstn n q)) /\
    count_get evs = List.length (firstn n q) /\
    count_check evs = n.
Proof.
  induction n as [| n IH]; intros q t Hq.
  - exists []. simpl. rewrite app_nil_r. auto.
  - cbn [iterate]. unfold bind. rewrite loop_unfold.
    destruct q as [| m q]; cbn [can trace adapter_check_message
      adapter_get_message fifo_adapter].
    + destruct (IH [] (t ++ [EvCheck false])%list Hq)
        as (evs & E & O & G & C).
      exists (EvCheck false :: evs). rewrite E.
      rewrite firstn_nil in *. rewrite skipn_nil in *.
      rewrite <- app_assoc. simpl. rewrite O, G, C. auto.
    + inversion Hq as [| ? ? Hm Hq']; subst.
      rewrite (print_message_valid m _ Hm). cbn [can trace].
      destruct (IH q ((t ++ [EvCheck true; EvGet (Some m)])
                      ++ message_writes m)%list Hq')
        as (evs & E & O & G & C).
      exists (EvCheck true :: EvGet (Some m) :: message_writes m ++ evs)%list.
      rewrite E. split.
      { cbn [skipn]. do 2 f_equal.
        rewrite <- !app_assoc. reflexivity. }
      cbn [firstn map cat_all List.length serial_output count_get count_check].
      rewrite serial_output_app, count_get_app, count_check_app.
      rewrite message_writes_output, O, G, C.
      destruct (writes_no_calls _ (message_writes_only m)) as [-> ->]. auto.
Qed.

(** C3. In every iteration of the ingestion loop the read of a frame
    ([mcp2515_get_message]) is called only after the query of that same
    iteration ([mcp2515_check_message]) has returned true: the trace of
    any run is a sequence of chunks, one per iteration, each with exactly
    one query, and a read in a chunk comes right after a query that
    answered true. *)
Theorem get_message_only_when_pending {A} `{ControllerAdapter A}
    (n : nat) (w : World A) :
  exists chunks,
    trace (snd (iterate n loop w)) = (trace w ++ concat chunks)%list /\
    (List.length chunks <= n)%nat /\
    (fst (iterate n loop w) = Ok tt -> List.length chunks = n) /\
    Forall
      (fun evs =>
         iteration_events evs /\
         count_check evs = 1%nat /\
         forall r, In (EvGet r) evs ->
           exists ws, evs = EvCheck true :: EvGet r :: ws /\
                      count_check ws = O /\ count_get ws = O)
      chunks.
Proof.
  destruct (iterate_loop_events n w) as (chunks & E & L & L' & F).
  exists chunks. repeat (split; [assumption |]).
  rewrite Forall_forall in *. intros evs Hin.
  pose proof (F evs Hin) as S.
  destruct (iteration_events_calls evs S) as (C & _ & G). auto.
Qed.

(** C7. At startup, before any polling, [setup] writes exactly one line
    that tells the result of the initialisation, [CAN Init ok] or
    [Can't init CAN], and then the one line
    [CAN Read - Test receiving of CAN Bus message]; the polling of the
    sketch starts from there. *)
Theorem setup_startup_lines {A} `{ControllerAdapter A} (w : World A) :
  exists ok a evs,
    adapter_init CANSPEED_500 (can w) = (ok, a) /\
    setup w = (Ok tt, mk_World a (trace w ++ evs)%list) /\
    serial_output evs =
      (if ok then "CAN Init ok" else "Can't init CAN") ++ CRLF
      ++ "CAN Read - Test receiving of CAN Bus message" ++ CRLF /\
    count_lines (serial_output evs) = 2%nat /\
    count_check evs = O /\ count_get evs = O /\
    forall n, sketch n w = iterate n loop (mk_World a (trace w ++ evs)%list).
Proof.
  pose proof (setup_run w) as E.
  destruct (adapter_init CANSPEED_500 (can w)) as [ok a].
  eexists ok, a, _. split; [reflexivity |]. split; [exact E |].
  split; [destruct ok; reflexivity |].
  split; [destruct ok; reflexivity |].
  split; [reflexivity |]. split; [reflexivity |].
  intros n. unfold sketch, bind. rewrite E. reflexivity.
Qed.

Section OneIteration.
Context {A : Type} `{ControllerAdapter A}.

(** The three ways an iteration can go, with what it writes. *)
Lemma loop_step (w : World A) :
  (new_events loop w = [EvCheck false] /\ fst (loop w) = Ok tt) \/
  (new_events loop w = [EvCheck true; EvGet None] /\ fst (loop w) = Ok tt) \/
  (exists m ws,
      new_events loop w = EvCheck true :: EvGet (Some m) :: ws /\
      forallb is_write ws = true /\
      (valid_frame m -> serial_output ws = format m /\ fst (loop w) = Ok tt)).
Proof.
  pose proof (loop_unfold w) as E.
  destruct (adapter_check_message (can w)) as [[|] a1].
  - destruct (adapter_get_message a1) as [[m |] a2].
    + right; right.
      destruct (write_only_print_message m
                  (mk_World a2 (trace w ++ [EvCheck true; EvGet (Some m)])%list))
        as (ws & Ews & W).
      exists m, ws. rewrite <- E in Ews. cbn [can trace] in Ews.
      split; [| split; [exact W |]].
      * apply new_events_eq. rewrite Ews. cbn [trace].
        rewrite <- app_assoc. reflexivity.
      * intros Hv.
        rewrite E, (print_message_valid m _ Hv) in Ews |- *.
        cbn [snd fst can trace] in *.
        inversion Ews as [Et]. apply app_inv_head in Et. subst ws.
        split; [apply message_writes_output | reflexivity].
    + right; left. split; [| rewrite E; reflexivity].
      apply new_events_eq. rewrite E. reflexivity.
  - left. split; [| rewrite E; reflexivity].
    apply new_events_eq. rewrite E. reflexivity.
Qed.

End OneIteration.

(** C8. Each iteration of the ingestion loop calls the read at most once
    and writes at most one line: nothing when the query finds no frame or
    when the read delivers none (silently, with a normal return), and the
    one line of the frame when the read delivers a valid frame.  With
    several valid frames waiting in a first-in first-out controller, each
    iteration reads and prints one of them, the next frame on the
    following iteration. *)
Theorem loop_one_line_per_read {A} `{ControllerAdapter A}
    (w : World A) (m : tCAN) (q : list tCAN) (t : list event) (n : nat) :
  valid_frame m ->
  Forall valid_frame q ->
  let evs := new_events loop w in
  trace (snd (loop w)) = (trace w ++ evs)%list /\
  count_check evs = 1%nat /\
  (count_get evs <= 1)%nat /\
  (count_get evs = O -> serial_output evs = "" /\ fst (loop w) = Ok tt) /\
  (In (EvGet None) evs -> serial_output evs = "" /\ fst (loop w) = Ok tt) /\
  (In (EvGet (Some m)) evs ->
   serial_output evs = format m /\ count_lines (format m) = 1%nat /\
   fst (loop w) = Ok tt) /\
  exists evs',
    iterate n loop (mk_World q t) =
      (Ok tt, mk_World (skipn n q) (t ++ evs')%list) /\
    serial_output evs' = cat_all (map format (firstn n q)) /\
    count_get evs' = List.length (firstn n q) /\
    count_check evs' = n.
Proof.
  intros Hm Hq evs.
  destruct (loop_events w) as (evs0 & E & S).
  assert (Eevs : evs = evs0) by (apply new_events_eq, E).
  destruct (iteration_events_calls evs0 S) as (C & G & _).
  rewrite Eevs. split; [exact E |]. split; [exact C |]. split; [exact G |].
  rewrite <- Eevs. clear E S C G Eevs evs0. subst evs.
  destruct (loop_step w) as [[E Hok] | [[E Hok] | (m' & ws & E & W & Hv)]];
    rewrite E.
  - split; [auto |]. split; [intros [D | []]; discriminate |].
    split; [intros [D | []]; discriminate |].
    apply fifo_iterate, Hq.
  - split; [discriminate |]. split; [auto |].
    split; [intros [D | [D | []]]; discriminate |].
    apply fifo_iterate, Hq.
  - destruct (writes_no_calls ws W) as [_ Hg].
    split; [simpl; rewrite Hg; discriminate |].
    split.
    { intros [D | [D | Hin]]; try discriminate.
      exfalso. exact (writes_not_get ws None W Hin). }
    split.
    { intros [D | [D | Hin]]; try discriminate.
      - inversion D; subst m'. destruct (Hv Hm) as [Ho Hok].
        simpl. rewrite Ho.
        split; [reflexivity |]. split; [apply format_one_line, Hm | exact Hok].
      - exfalso. exact (writes_not_get ws (Some m) W Hin). }
    apply fifo_iterate, Hq.
Qed.

Lemma loop_one_line_per_read_witness :
  valid_frame frame_7DF /\
  Forall valid_frame [frame_7DF; frame_empty] /\
  In (EvGet (Some frame_7DF))
     (new_events loop (mk_World [frame_7DF; frame_empty] [])) /\
  serial_output (new_events loop (mk_World [frame_7DF; frame_empty] [])) =
    "ID: 7DF Data: 02010C" ++ CRLF /\
  exists evs',
    iterate 2 loop (mk_World [frame_7DF; frame_empty] []) =
      (Ok tt, mk_World [] evs') /\
    serial_output evs' =
      "ID: 7DF Data: 02010C" ++ CRLF ++ "ID: 123 Data: " ++ CRLF /\
    count_get evs' = 2%nat /\
    count_check evs' = 2%nat.
Proof.
  assert (Hq : Forall valid_frame [frame_7DF; frame_empty]).
  { constructor; [exact valid_frame_7DF |].
    constructor; [exact valid_frame_empty | constructor]. }
  assert (Hin : In (EvGet (Some frame_7DF))
                   (new_events loop (mk_World [frame_7DF; frame_empty] []))).
  { right. left. reflexivity. }
  split; [exact valid_frame_7DF |]. split; [exact Hq |].
  split; [exact Hin |].
  destruct (loop_one_line_per_read
              (mk_World [frame_7DF; frame_empty] []) frame_7DF
              [frame_7DF; frame_empty] [] 2 valid_frame_7DF Hq)
    as (_ & _ & _ & _ & _ & Hframe & Hfifo).
  split; [exact (proj1 (Hframe Hin)) |].
  exact Hfifo.
Defined.

(** * After a failed initialisation *)




(** * Further properties of the sketch *)

Section Runs.
Context {A : Type} `{ControllerAdapter A}.

Lemma delivered_app (t1 t2 : list event) :
  delivered (t1 ++ t2)%list = (delivered t1 ++ delivered t2)%list.
Proof.
  induction t1 as [| e t1 IH]; simpl; [reflexivity |].
  destruct e as [| | | | | [m |]]; simpl; rewrite IH; reflexivity.
Qed.

Lemma delivered_writes (ws : list event) :
  forallb is_write ws = true -> delivered ws = [].
Proof.
  induction ws as [| e ws IH]; simpl; [reflexivity |].
  destruct e; simpl; try discriminate. exact IH.
Qed.

Lemma count_init_app (t1 t2 : list event) :
  count_init (t1 ++ t2)%list = (count_init t1 + count_init t2)%nat.
Proof.
  induction t1 as [| e t1 IH]; simpl; [reflexivity |].
  destruct e; simpl; rewrite IH; reflexivity.
Qed.

Lemma count_lines_formats (l : list tCAN) :
  Forall valid_frame l ->
  count_lines (cat_all (map format l)) = List.length l.
Proof.
  induction 1 as [| m l Hm _ IH]; [reflexivity |].
  cbn [map cat_all List.length].
  rewrite count_lines_app, (format_one_line m Hm), IH. reflexivity.
Qed.

(** With a driver that delivers valid frames only, any number of
    iterations returns normally, and what they write is the lines of the
    frames delivered, in the order of delivery. *)
Lemma iterate_loop_output (n : nat) : forall (w : World A),
  (forall a m a', adapter_get_message a = (Some m, a') -> valid_frame m) ->
  exists a evs,
    iterate n loop w = (Ok tt, mk_World a (trace w ++ evs)%list) /\
    serial_output evs = cat_all (map format (delivered evs)) /\
    Forall valid_frame (delivered evs) /\
    count_check evs = n /\
    count_init evs = O.
Proof.
  induction n as [| n IH]; intros w Hvalid.
  - exists (can w), []. simpl. rewrite app_nil_r.
    destruct w; repeat split; constructor.
  - cbn [iterate]. unfold bind. rewrite loop_unfold.
    destruct (adapter_check_message (can w)) as [[|] a1].
    + destruct (adapter_get_message a1) as [[m |] a2] eqn:Eget.
      * pose proof (Hvalid _ _ _ Eget) as Hm.
        rewrite (print_message_valid m _ Hm). cbn [can trace].
        destruct (IH (mk_World a2
                        ((trace w ++ [EvCheck true; EvGet (Some m)])
                         ++ message_writes m)%list) Hvalid)
          as (a & evs & E & Ho & V & C & I).
        exists a, (EvCheck true :: EvGet (Some m) :: message_writes m ++ evs)%list.
        rewrite E. cbn [trace]. split.
        { do 2 f_equal. rewrite <- !app_assoc. reflexivity. }
        cbn [serial_output delivered count_check count_init map cat_all].
        rewrite serial_output_app, delivered_app, count_check_app,
          count_init_app.
        rewrite (delivered_writes _ (message_writes_only m)).
        rewrite message_writes_output, Ho, C, I.
        destruct (writes_no_calls _ (message_writes_only m)) as [-> _].
        assert (Hi : count_init (message_writes m) = O).
        { unfold message_writes.
          induction (["ID: "; print_unsigned (id m) HEX; " "; "Data: "] ++
                     map fmt_02X (payload m) ++ [""; CRLF])%list;
            simpl; auto. }
        rewrite Hi. cbn [app].
        split; [reflexivity |]. split; [constructor; assumption |].
        split; reflexivity.
      * destruct (IH (mk_World a2 (trace w ++ [EvCheck true; EvGet None])%list)
                    Hvalid)
          as (a & evs & E & Ho & V & C & I).
        exists a, (EvCheck true :: EvGet None :: evs). rewrite E. cbn [trace].
        split; [rewrite <- app_assoc; reflexivity |].
        simpl. rewrite C, I. auto.
    + destruct (IH (mk_World a1 (trace w ++ [EvCheck false])%list) Hvalid)
        as (a & evs & E & Ho & V & C & I).
      exists a, (EvCheck false :: evs). rewrite E. cbn [trace].
      split; [rewrite <- app_assoc; reflexivity |].
      simpl. rewrite C, I. auto.
Qed.

Lemma iteration_events_counts (chunks : list (list event)) :
  Forall iteration_events chunks ->
  count_check (concat chunks) = List.length chunks /\
  (count_get (concat chunks) <= List.length chunks)%nat /\
  count_init (concat chunks) = O.
Proof.
  induction 1 as [| evs chunks Hevs _ (IHc & IHg & IHi)]; simpl; [auto |].
  rewrite count_check_app, count_get_app, count_init_app, IHc, IHi.
  destruct (iteration_events_calls evs Hevs) as (C & G & _).
  rewrite C. split; [reflexivity |]. split; [lia |].
  destruct Hevs as [| | m ws W]; simpl; try reflexivity.
  clear - W. induction ws as [| e ws IH]; simpl; [reflexivity |].
  destruct e; simpl in *; try discriminate. exact (IH W).
Qed.

End Runs.

Section WholeRuns.
Context {A : Type} `{ControllerAdapter A}.

(** The trace of the sketch: the calls of [setup], then one chunk for each
    iteration begun. *)
Lemma sketch_events (w : World A) (n : nat) :
  exists ok a chunks,
    adapter_init CANSPEED_500 (can w) = (ok, a) /\
    new_events (sketch n) w =
      ([EvSerialBegin 9600; EvInit CANSPEED_500 ok;
        EvWrite (if ok then "CAN Init ok" else "Can't init CAN");
        EvWrite CRLF;
        EvWrite "CAN Read - Test receiving of CAN Bus message";
        EvWrite CRLF; EvDelay 1000] ++ concat chunks)%list /\
    (List.length chunks <= n)%nat /\
    (fst (sketch n w) = Ok tt -> List.length chunks = n) /\
    Forall iteration_events chunks.
Proof.
  pose proof (setup_run w) as Es.
  destruct (adapter_init CANSPEED_500 (can w)) as [ok a].
  match type of Es with
  | _ = (_, ?w1) =>
      destruct (iterate_loop_events n w1) as (chunks & E & L & L' & F)
  end.
  exists ok, a, chunks. split; [reflexivity |].
  assert (Esk : sketch n w = iterate n loop
                  (mk_World a
                     (trace w ++
                      [EvSerialBegin 9600; EvInit CANSPEED_500 ok;
                       EvWrite (if ok then "CAN Init ok" else "Can't init CAN");
                       EvWrite CRLF;
                       EvWrite "CAN Read - Test receiving of CAN Bus message";
                       EvWrite CRLF; EvDelay 1000])%list)).
  { unfold sketch, bind. rewrite Es. reflexivity. }
  split.
  { apply new_events_eq. rewrite Esk, E. cbn [trace].
    rewrite <- app_assoc. reflexivity. }
  split; [exact L |]. split; [rewrite Esk; exact L' | exact F].
Qed.

End WholeRuns.

(** X1. With a driver that delivers valid frames only, the sketch never
    runs into undefined behaviour, queries the controller once in each
    iteration, and its whole output is the two startup lines followed by
    the lines of the frames delivered, one line each, in the order of
    delivery. *)
Theorem sketch_prints_delivered {A} `{ControllerAdapter A}
    (w : World A) (n : nat) :
  (forall a m a', adapter_get_message a = (Some m, a') -> valid_frame m) ->
  let evs := new_events (sketch n) w in
  fst (sketch n w) = Ok tt /\
  trace (snd (sketch n w)) = (trace w ++ evs)%list /\
  serial_output evs =
    (if fst (adapter_init CANSPEED_500 (can w))
     then "CAN Init ok" else "Can't init CAN") ++ CRLF
    ++ "CAN Read - Test receiving of CAN Bus message" ++ CRLF
    ++ cat_all (map format (delivered evs)) /\
  count_lines (serial_output evs) = (2 + List.length (delivered evs))%nat /\
  count_check evs = n.
Proof.
  intros Hvalid evs.
  pose proof (setup_run w) as Es.
  destruct (adapter_init CANSPEED_500 (can w)) as [ok a0]. cbn [fst].
  match type of Es with
  | _ = (_, ?w1) =>
      destruct (iterate_loop_output n w1 Hvalid)
        as (a & evs' & E & Ho & V & C & I)
  end.
  cbn [trace] in E.
  assert (Esk : sketch n w =
                (Ok tt,
                 mk_World a
                   (trace w ++
                    [EvSerialBegin 9600; EvInit CANSPEED_500 ok;
                     EvWrite (if ok then "CAN Init ok" else "Can't init CAN");
                     EvWrite CRLF;
                     EvWrite "CAN Read - Test receiving of CAN Bus message";
                     EvWrite CRLF; EvDelay 1000] ++ evs')%list)).
  { unfold sketch, bind. rewrite Es, E. rewrite <- app_assoc. reflexivity. }
  assert (Eevs : evs =
                 ([EvSerialBegin 9600; EvInit CANSPEED_500 ok;
                   EvWrite (if ok then "CAN Init ok" else "Can't init CAN");
                   EvWrite CRLF;
                   EvWrite "CAN Read - Test receiving of CAN Bus message";
                   EvWrite CRLF; EvDelay 1000] ++ evs')%list).
  { apply new_events_eq. rewrite Esk. reflexivity. }
  rewrite Eevs, Esk. clear Eevs Esk E Es evs.
  split; [reflexivity |]. split; [reflexivity |].
  rewrite serial_output_app, delivered_app, count_check_app, Ho, C.
  cbn [delivered app count_check Nat.add].
  assert (Hs : serial_output
                 [EvSerialBegin 9600; EvInit CANSPEED_500 ok;
                  EvWrite (if ok then "CAN Init ok" else "Can't init CAN");
                  EvWrite CRLF;
                  EvWrite "CAN Read - Test receiving of CAN Bus message";
                  EvWrite CRLF; EvDelay 1000] =
               (if ok then "CAN Init ok" else "Can't init CAN") ++ CRLF
               ++ "CAN Read - Test receiving of CAN Bus message" ++ CRLF).
  { destruct ok; reflexivity. }
  rewrite Hs. split.
  { rewrite !append_assoc. reflexivity. }
  split; [| reflexivity].
  rewrite count_lines_app, (count_lines_formats _ V).
  destruct ok; reflexivity.
Qed.

Lemma sketch_prints_delivered_witness :
  (forall (a : unconfigured) m a',
      adapter_get_message a = (Some m, a') -> valid_frame m) /\
  fst (sketch 2 (mk_World Unconfigured [])) = Ok tt /\
  serial_output (new_events (sketch 2) (mk_World Unconfigured [])) =
    "Can't init CAN" ++ CRLF
    ++ "CAN Read - Test receiving of CAN Bus message" ++ CRLF
    ++ cat_all (map format [frame_7DF; frame_7DF]) /\
  count_check (new_events (sketch 2) (mk_World Unconfigured [])) = 2%nat.
Proof.
  assert (Hv : forall (a : unconfigured) m a',
             adapter_get_message a = (Some m, a') -> valid_frame m).
  { intros a m a' E. inversion E. exact valid_frame_7DF. }
  split; [exact Hv |].
  destruct (@sketch_prints_delivered unconfigured unconfigured_adapter
              (mk_World Unconfigured []) 2 Hv)
    as (Hok & _ & Ho & _ & Hc).
  split; [exact Hok |]. split; [exact Ho | exact Hc].
Defined.

(** X2. The initialisation is called exactly once, with the 500 kbit/s
    rate, right after the serial port is opened and before any query or
    read; the loop never calls it again, whatever its result was. *)
Theorem init_called_once {A} `{ControllerAdapter A} (w : World A) (n : nat) :
  exists ok rest,
    fst (adapter_init CANSPEED_500 (can w)) = ok /\
    new_events (sketch n) w =
      EvSerialBegin 9600 :: EvInit CANSPEED_500 ok :: rest /\
    count_init rest = O /\
    count_init (new_events (sketch n) w) = 1%nat.
Proof.
  destruct (sketch_events w n) as (ok & a & chunks & Ei & E & _ & _ & F).
  destruct (iteration_events_counts chunks F) as (_ & _ & I).
  eexists ok, _. rewrite Ei, E. cbn [fst app].
  split; [reflexivity |]. split; [reflexivity |].
  cbn [count_init]. rewrite I. split; reflexivity.
Qed.

(** X3. In every run the controller is queried at most once per iteration
    (exactly once when the run returns normally), and the number of reads
    never exceeds the number of queries. *)
Theorem reads_bounded_by_queries {A} `{ControllerAdapter A}
    (w : World A) (n : nat) :
  let evs := new_events (sketch n) w in
  (count_get evs <= count_check evs)%nat /\
  (count_check evs <= n)%nat /\
  (fst (sketch n w) = Ok tt -> count_check evs = n).
Proof.
  intros evs. subst evs.
  destruct (sketch_events w n) as (ok & a & chunks & _ & E & L & L' & F).
  destruct (iteration_events_counts chunks F) as (C & G & _).
  rewrite E. cbn [app count_get count_check]. rewrite C.
  split; [exact G |]. split; [exact L | exact L'].
Qed.

Section Lines.

Lemma length_append (s1 s2 : string) :
  String.length (s1 ++ s2) = (String.length s1 + String.length s2)%nat.
Proof.
  induction s1 as [| c s1 IH]; simpl; [reflexivity | now rewrite IH].
Qed.

Lemma id_segment_format (m : tCAN) :
  valid_frame m ->
  id_segment (format m) = Some (print_unsigned (id m) HEX).
Proof.
  intros Hv. unfold format, id_segment.
  rewrite strip_prefix_app.
  change (" Data: " ++ cat_all (map fmt_02X (payload m)) ++ CRLF)
    with (String " "%char
            ("Data: " ++ cat_all (map fmt_02X (payload m)) ++ CRLF)).
  rewrite split_at_char_app; [reflexivity |].
  eapply all_chars_impl; [apply (hex_digit_not " "%char); reflexivity |].
  eapply upper_hex_all_hex, print_unsigned_hex, valid_id_range, Hv.
Qed.

(** The number of digits [printNumber] stores in base 16. *)
Lemma printNumber_loop_length (k : nat) : forall (fuel : nat) (n : Z),
  (k <= fuel)%nat ->
  0 <= n < 16 ^ Z.of_nat (S k) ->
  (1 <= String.length (printNumber_loop (S fuel) n 16 "") <= S k)%nat.
Proof.
  induction k as [| k IH]; intros fuel n Hk Hn.
  - change (16 ^ Z.of_nat 1) with 16 in Hn.
    rewrite printNumber_loop_S, Z.div_small by lia. simpl. lia.
  - rewrite printNumber_loop_S.
    assert (Hpow : 16 ^ Z.of_nat (S (S k)) = 16 * 16 ^ Z.of_nat (S k)).
    { rewrite (Nat2Z.inj_succ (S k)), Z.pow_succ_r by lia. reflexivity. }
    destruct (Z.eqb_spec (n / 16) 0) as [Hz | Hnz]; [simpl; lia |].
    destruct fuel as [| fuel]; [lia |].
    rewrite printNumber_loop_app, length_append.
    assert (Hdiv : 0 <= n / 16 < 16 ^ Z.of_nat (S k)).
    { split; [apply Z.div_pos; lia |].
      apply Z.div_lt_upper_bound; lia. }
    pose proof (IH fuel (n / 16) ltac:(lia) Hdiv) as Hlen.
    change (String.length (String (digit_char (n mod 16)) "")) with 1%nat.
    lia.
Qed.

Lemma cat_all_bytes_length (bs : list Z) :
  Forall is_byte bs ->
  String.length (cat_all (map fmt_02X bs)) = (2 * List.length bs)%nat.
Proof.
  induction 1 as [| b bs Hb _ IH]; [reflexivity |].
  cbn [map cat_all List.length]. rewrite length_append, IH.
  rewrite (fmt_02X_byte b Hb). simpl String.length. lia.
Qed.

(** When the length field says more than the buffer holds, the [for] loop
    writes the digits of the whole buffer and then reads past its end. *)
Lemma for_range_overrun {A} (suf : list Z) :
  forall (n : nat) (pre : list Z) (w : World A),
  (List.length suf < n)%nat ->
  Forall is_byte suf ->
  for_range n (Z.of_nat (List.length pre))
    (fun i =>
       v <- array_read (pre ++ suf)%list i ;;
       s <- sprintf 3 v ;;
       Serial_print s) w =
  (Undefined,
   mk_World (can w) (trace w ++ map EvWrite (map fmt_02X suf))%list).
Proof.
  induction suf as [| v suf IH]; intros n pre w Hlen Hbytes;
    (destruct n as [| n]; [simpl in Hlen; lia |]); cbn [for_range].
  - erewrite bind_Undefined; cycle 1.
    { erewrite bind_Undefined; [reflexivity |].
      unfold array_read.
      destruct (Z.ltb_spec (Z.of_nat (List.length pre)) 0); [lia |].
      rewrite Nat2Z.id, app_nil_r.
      rewrite (proj2 (nth_error_None pre (List.length pre))) by lia.
      reflexivity. }
    simpl. rewrite app_nil_r. destruct w; reflexivity.
  - inversion Hbytes as [| ? ? Hv Hsuf]; subst.
    erewrite bind_Ok; cycle 1.
    { erewrite bind_Ok by apply array_read_in.
      erewrite bind_Ok by (apply sprintf_byte; exact Hv).
      apply Serial_print_run. }
    replace (pre ++ v :: suf)%list with ((pre ++ [v]) ++ suf)%list
      by (rewrite <- app_assoc; reflexivity).
    replace (Z.of_nat (List.length pre) + 1)
      with (Z.of_nat (List.length (pre ++ [v])%list))
      by (rewrite length_app; simpl; lia).
    rewrite IH by (simpl in Hlen; try exact Hsuf; lia).
    cbn [can trace map]. rewrite <- app_assoc. reflexivity.
Qed.

Lemma writes_format {A} (m : tCAN) (w : World A) (line : string) :
  valid_frame m -> writes (print_message m) w line -> line = format m.
Proof.
  intros Hv (ws & E & _ & Ho).
  rewrite (print_message_valid m w Hv) in E.
  inversion E as [Et]. apply app_inv_head in Et. subst ws.
  rewrite <- Ho. apply message_writes_output.
Qed.

Lemma print_unsigned_length (n : Z) (k : nat) :
  (k <= 7)%nat ->
  0 <= n < 16 ^ Z.of_nat (S k) ->
  (1 <= String.length (print_unsigned n HEX) <= S k)%nat.
Proof.
  intros Hk Hn. unfold print_unsigned, printNumber, HEX.
  change (if 16 <? 2 then 10 else 16) with 16.
  assert (Hle : 16 ^ Z.of_nat (S k) <= 16 ^ Z.of_nat 8)
    by (apply Z.pow_le_mono_r; lia).
  change (16 ^ Z.of_nat 8) with (2 ^ 32) in Hle.
  rewrite Z.mod_small by lia.
  apply printNumber_loop_length; [lia | exact Hn].
Qed.

End Lines.

(** X4. For every valid frame, reading the identifier segment of the
    written line (between [ID: ] and the next space) back as hexadecimal
    gives the identifier of the frame. *)
Theorem line_id_roundtrip {A} (w : World A) (m : tCAN) :
  valid_frame m ->
  exists line,
    writes (print_message m) w line /\
    parse_line_id line = Some (id m).
Proof.
  intros Hv. exists (format m).
  split; [apply print_message_writes, Hv |].
  unfold parse_line_id. rewrite (id_segment_format m Hv).
  apply print_unsigned_hex, valid_id_range, Hv.
Qed.

Lemma line_id_roundtrip_witness :
  valid_frame frame_7DF_stale /\
  exists line,
    writes (print_message frame_7DF_stale) (mk_World tt []) line /\
    parse_line_id line = Some 0x7DF.
Proof.
  split; [exact valid_frame_7DF_stale |].
  exact (line_id_roundtrip (mk_World tt []) frame_7DF_stale
           valid_frame_7DF_stale).
Defined.

(** X5. The written line determines the frame: two valid frames for which
    the formatting step writes the same text have the same identifier, the
    same length and the same payload. *)
Theorem line_determines_frame {A} (w1 w2 : World A) (m1 m2 : tCAN)
    (line : string) :
  valid_frame m1 ->
  valid_frame m2 ->
  writes (print_message m1) w1 line ->
  writes (print_message m2) w2 line ->
  id m1 = id m2 /\
  header_length m1 = header_length m2 /\
  payload m1 = payload m2.
Proof.
  intros Hv1 Hv2 W1 W2.
  pose proof (writes_format m1 w1 line Hv1 W1) as E1.
  pose proof (writes_format m2 w2 line Hv2 W2) as E2.
  assert (Hid : Some (id m1) = Some (id m2)).
  { pose proof (id_segment_format m1 Hv1) as S1.
    pose proof (id_segment_format m2 Hv2) as S2.
    rewrite <- E1 in S1. rewrite <- E2, S1 in S2.
    inversion S2 as [Eh].
    destruct (print_unsigned_hex (id m1) (valid_id_range m1 Hv1)) as [P1 _].
    destruct (print_unsigned_hex (id m2) (valid_id_range m2 Hv2)) as [P2 _].
    rewrite <- P1, <- P2, Eh. reflexivity. }
  assert (Hp : Some (payload m1) = Some (payload m2)).
  { pose proof (data_segment_format m1 Hv1) as S1.
    pose proof (data_segment_format m2 Hv2) as S2.
    rewrite <- E1 in S1. rewrite <- E2, S1 in S2.
    inversion S2 as [Eh].
    rewrite <- (parse_hex_bytes_fmt _ (valid_payload_bytes m1 Hv1)).
    rewrite <- (parse_hex_bytes_fmt _ (valid_payload_bytes m2 Hv2)).
    rewrite Eh. reflexivity. }
  inversion Hid as [Hid']. inversion Hp as [Hp'].
  split; [reflexivity |]. split; [| reflexivity].
  rewrite <- (valid_payload_length m1 Hv1), <- (valid_payload_length m2 Hv2).
  rewrite Hp'. reflexivity.
Qed.

Lemma line_determines_frame_witness :
  valid_frame frame_7DF /\
  valid_frame frame_7DF_stale /\
  writes (print_message frame_7DF) (mk_World tt []) (format frame_7DF) /\
  writes (print_message frame_7DF_stale) (mk_World tt [EvDelay 1000])
    (format frame_7DF) /\
  frame_7DF <> frame_7DF_stale /\
  id frame_7DF = id frame_7DF_stale /\
  header_length frame_7DF = header_length frame_7DF_stale /\
  payload frame_7DF = payload frame_7DF_stale.
Proof.
  assert (W1 : writes (print_message frame_7DF) (mk_World tt [])
                 (format frame_7DF))
    by (apply print_message_writes, valid_frame_7DF).
  assert (W2 : writes (print_message frame_7DF_stale)
                 (mk_World tt [EvDelay 1000]) (format frame_7DF))
    by (apply (print_message_writes frame_7DF_stale), valid_frame_7DF_stale).
  split; [exact valid_frame_7DF |]. split; [exact valid_frame_7DF_stale |].
  split; [exact W1 |]. split; [exact W2 |]. split; [discriminate |].
  exact (line_determines_frame (mk_World tt []) (mk_World tt [EvDelay 1000])
           frame_7DF frame_7DF_stale (format frame_7DF)
           valid_frame_7DF valid_frame_7DF_stale W1 W2).
Defined.

(** X6. The length field is not checked against the buffer: for a message
    whose length exceeds the size of its buffer the formatting step writes
    [ID: ], the identifier, [ Data: ] and the digits of every byte of the
    buffer, and then reads [data] past its end, which is undefined
    behaviour. *)
Theorem print_message_overlong {A} (w : World A) (m : tCAN) :
  Forall is_byte (data m) ->
  Z.of_nat (List.length (data m)) < header_length m ->
  print_message m w =
  (Undefined,
   mk_World (can w)
     (trace w ++
      map EvWrite (["ID: "; print_unsigned (id m) HEX; " "; "Data: "]
                   ++ map fmt_02X (data m)))%list).
Proof.
  intros Hbytes Hlen.
  unfold print_message, Serial_print_base.
  do 4 (erewrite bind_Ok by apply Serial_print_run).
  erewrite bind_Undefined; [reflexivity |].
  rewrite (for_range_overrun (data m) _ [] _); [| lia | exact Hbytes].
  cbn [can trace]. rewrite map_app.
  repeat rewrite <- app_assoc. reflexivity.
Qed.

Lemma print_message_overlong_witness :
  Forall is_byte (data frame_overlong) /\
  Z.of_nat (List.length (data frame_overlong)) < header_length frame_overlong /\
  fst (print_message frame_overlong (mk_World tt [])) = Undefined /\
  serial_output (trace (snd (print_message frame_overlong (mk_World tt [])))) =
    "ID: 7DF Data: 02010C0000000000".
Proof.
  assert (Hb : Forall is_byte (data frame_overlong)).
  { unfold is_byte. simpl. repeat constructor; lia. }
  assert (Hl : Z.of_nat (List.length (data frame_overlong))
               < header_length frame_overlong) by (simpl; lia).
  split; [exact Hb |]. split; [exact Hl |].
  rewrite (print_message_overlong (mk_World tt []) frame_overlong Hb Hl).
  split; reflexivity.
Defined.

(** X7. The line written for a valid frame has four characters of [ID: ],
    one to eight digits of identifier (at most three for an 11-bit
    identifier), seven characters of [ Data: ], two digits for each payload
    byte and the two characters of the terminator: between 14 and 37
    characters in all. *)
Theorem line_length {A} (w : World A) (m : tCAN) (line : string) :
  valid_frame m ->
  writes (print_message m) w line ->
  String.length line =
    (13 + String.length (print_unsigned (id m) HEX)
     + 2 * Z.to_nat (header_length m))%nat /\
  (1 <= String.length (print_unsigned (id m) HEX) <= 8)%nat /\
  (id m < 2 ^ 11 -> (String.length (print_unsigned (id m) HEX) <= 3)%nat) /\
  (14 <= String.length line <= 37)%nat.
Proof.
  intros Hv W. rewrite (writes_format m w line Hv W).
  pose proof (valid_id_range m Hv) as Hid.
  assert (Hd : (1 <= String.length (print_unsigned (id m) HEX) <= 8)%nat).
  { apply (print_unsigned_length (id m) 7); [lia |].
    change (16 ^ Z.of_nat 8) with (2 ^ 32). exact Hid. }
  assert (Hn : String.length (format m) =
               (13 + String.length (print_unsigned (id m) HEX)
                + 2 * Z.to_nat (header_length m))%nat).
  { unfold format. rewrite !length_append.
    rewrite (cat_all_bytes_length _ (valid_payload_bytes m Hv)).
    pose proof (valid_payload_length m Hv) as Hp.
    simpl String.length. lia. }
  destruct Hv as (_ & Hlen & _).
  split; [exact Hn |]. split; [exact Hd |]. split; [| lia].
  intros Hstd.
  apply (print_unsigned_length (id m) 2); [lia |].
  change (16 ^ Z.of_nat 3) with 4096. change (2 ^ 11) with 2048 in Hstd. lia.
Qed.

Lemma line_length_witness :
  valid_frame frame_7DF /\
  writes (print_message frame_7DF) (mk_World tt []) (format frame_7DF) /\
  String.length (format frame_7DF) = 22%nat.
Proof.
  assert (W : writes (print_message frame_7DF) (mk_World tt [])
                (format frame_7DF))
    by (apply print_message_writes, valid_frame_7DF).
  split; [exact valid_frame_7DF |]. split; [exact W |].
  exact (proj1 (line_length (mk_World tt []) frame_7DF (format frame_7DF)
                  valid_frame_7DF W)).
Defined.

Section Prefixes.
Context {A : Type} `{ControllerAdapter A}.

Lemma bind_assoc {X Y Z'} (c : M A X) (k : X -> M A Y) (h : Y -> M A Z')
    (w : World A) :
  bind (bind c k) h w = bind c (fun x => bind (k x) h) w.
Proof.
  unfold bind. destruct (c w) as [[x |] w1]; reflexivity.
Qed.

Lemma bind_ret_unit (c : M A unit) (w : World A) :
  bind c (fun _ => ret tt) w = c w.
Proof.
  unfold bind, ret. destruct (c w) as [[[] |] w1]; reflexivity.
Qed.

(** [n + 1] iterations are [n] iterations and then one more. *)
Lemma iterate_snoc (body : M A unit) (n : nat) : forall (w : World A),
  iterate (S n) body w = bind (iterate n body) (fun _ => body) w.
Proof.
  induction n as [| n IH]; intros w.
  - cbn [iterate]. rewrite bind_ret_unit. reflexivity.
  - change (iterate (S (S n)) body w)
      with (bind body (fun _ => iterate (S n) body) w).
    rewrite (bind_agree body body (fun _ => iterate (S n) body)
               (fun _ => bind (iterate n body) (fun _ => body)) w eq_refl)
      by (intros _ w'; apply IH).
    rewrite <- bind_assoc. reflexivity.
Qed.

End Prefixes.

(** X8. What a run has done is never changed by running longer: the trace
    (and with it the serial output) after [n + 1] iterations is the trace
    after [n] iterations followed by the events of one more iteration, or
    by nothing when the run had stopped in undefined behaviour. *)
Theorem sketch_trace_grows {A} `{ControllerAdapter A} (w : World A) (n : nat) :
  exists evs,
    trace (snd (sketch (S n) w)) = (trace (snd (sketch n w)) ++ evs)%list /\
    serial_output (trace (snd (sketch (S n) w))) =
      serial_output (trace (snd (sketch n w))) ++ serial_output evs /\
    ((fst (sketch n w) = Ok tt /\ iteration_events evs) \/
     (fst (sketch n w) = Undefined /\ evs = [] /\
      sketch (S n) w = sketch n w)).
Proof.
  assert (E : sketch (S n) w = bind (sketch n) (fun _ => loop) w).
  { unfold sketch. rewrite bind_assoc.
    apply bind_agree; [reflexivity |]. intros _ w'. apply iterate_snoc. }
  rewrite E. unfold bind at 1 2 3.
  destruct (sketch n w) as [[[] |] w1]; cbn [fst snd].
  - destruct (loop_events w1) as (evs & Et & S).
    exists evs. rewrite Et. split; [reflexivity |].
    split; [apply serial_output_app | left; auto].
  - exists []. rewrite app_nil_r. split; [reflexivity |].
    split; [simpl; rewrite append_empty_r; reflexivity |].
    right. split; [reflexivity |]. split; reflexivity.
Qed.
